(** * A model of the [vtable] crate: checked type erasure ([every.rs]),
    the per-type operation table ([lib.rs], [ched.rs]) and the process-wide
    table registry ([vtable.rs]). *)

From Stdlib Require Import ZArith String Ascii Eqdep_dec.
From stdpp Require Import base gmap list strings pretty proof_irrel.

Open Scope string_scope.

(** ** Rust types, type identities and type names *)

(** The universe of ['static] Rust types a program instantiates.  A type's
    [TypeId] is the type itself (it is injective on types); [type_name] is
    [std::any::type_name], which need not be injective. *)
Class RustTypes := {
  ty : Type;
  ty_eq_dec :: EqDecision ty;
  ty_countable :: Countable ty;
  denote : ty -> Type;
  type_name : ty -> string
}.

(** [Result<A, E>]. *)
Inductive result (A E : Type) : Type :=
| Ok (a : A)
| Err (e : E).
Arguments Ok {A E} a.
Arguments Err {A E} e.

(** The outcome of a Rust call that may panic with a message. *)
Inductive outcome (A : Type) : Type :=
| Returns (a : A)
| Panics (msg : string).
Arguments Returns {A} a.
Arguments Panics {A} msg.

Definition bind_outcome {A B} (m : outcome A) (k : A -> outcome B) : outcome B :=
  match m with
  | Returns a => k a
  | Panics msg => Panics msg
  end.

#[global] Instance outcome_ret : MRet outcome := fun _ a => Returns a.
#[global] Instance outcome_bind : MBind outcome := fun _ _ k m => bind_outcome m k.

(** A mutable borrow [&mut A] into an owner of type [B]: the value it
    currently points at, and the owner after a write [*r = a] through it. *)
Record MutRef (A B : Type) := {
  mr_get : A;
  mr_set : A -> B
}.
Arguments mr_get {A B} _.
Arguments mr_set {A B} _ _.

(** ** every.rs *)
Section Every.
Context `{RT : RustTypes}.

(** [Box<dyn Every>] / [&dyn Every]: a value with its runtime type. *)
Definition Every : Type := sigT denote.

Definition type_id (e : Every) : ty := projT1 e.

(** [Every::type_name], dispatched dynamically. *)
Definition every_type_name (e : Every) : string := type_name (type_id e).

(** [TypeId::of::<T>() == self.type_id()]. *)
Definition is (T : ty) (self : Every) : bool := bool_decide (T = type_id self).

Record DowncastError := {
  source_type_id : ty;
  source_type_name : string;
  target_type_id : ty;
  target_type_name : string
}.

(** [impl Display for DowncastError]. *)
Definition display (e : DowncastError) : string :=
  "cannot downcast " ++ source_type_name e ++ " into " ++ target_type_name e.

Definition cannot_downcast (T : ty) (source : Every) : DowncastError := {|
  source_type_id := type_id source;
  source_type_name := every_type_name source;
  target_type_id := T;
  target_type_name := type_name T
|}.

(** [__downcast_ref]: the identity check, then the reinterpretation. *)
Definition __downcast_ref (T : ty) (self : Every) : option (denote T) :=
  match decide (T = projT1 self) with
  | left H => Some (eq_rect_r denote (projT2 self) H)
  | right _ => None
  end.

Definition ok_or_else {A E} (o : option A) (f : unit -> E) : result A E :=
  match o with
  | Some a => Ok a
  | None => Err (f tt)
  end.

Definition downcast_ref (T : ty) (self : Every) : result (denote T) DowncastError :=
  ok_or_else (__downcast_ref T self) (fun _ => cannot_downcast T self).

(** [__downcast_mut]: a [&mut T] into the erased value. *)
Definition __downcast_mut (T : ty) (self : Every) : option (MutRef (denote T) Every) :=
  match decide (T = projT1 self) with
  | left H => Some {| mr_get := eq_rect_r denote (projT2 self) H;
                      mr_set := fun v => existT T v |}
  | right _ => None
  end.

Definition downcast_mut (T : ty) (self : Every)
  : result (MutRef (denote T) Every) DowncastError :=
  ok_or_else (__downcast_mut T self) (fun _ => cannot_downcast T self).

(** [__downcast]: [Ok(Box<T>)] or the box back in [Err]. *)
Definition __downcast (T : ty) (s : Every) : result (denote T) Every :=
  match decide (T = projT1 s) with
  | left H => Ok (eq_rect_r denote (projT2 s) H)
  | right _ => Err s
  end.

Definition map_result {A B E} (f : A -> B) (r : result A E) : result B E :=
  match r with Ok a => Ok (f a) | Err e => Err e end.

Definition map_err {A E F} (f : E -> F) (r : result A E) : result A F :=
  match r with Ok a => Ok a | Err e => Err (f e) end.

(** [BoxDowncast::downcast] for [Box<dyn Every>]. *)
Definition box_downcast (T : ty) (self : Every) : result (denote T) DowncastError :=
  map_err (fun this => cannot_downcast T this) (map_result (fun this => this) (__downcast T self)).

(** [panic]: [panic!("{error}")]. *)
Definition panic {R} (error : DowncastError) : outcome R := Panics (display error).

Definition unwrap_or_else {A} (r : result A DowncastError)
    (f : DowncastError -> outcome A) : outcome A :=
  match r with Ok a => Returns a | Err e => f e end.

End Every.

(** ** vtable.rs: the registry *)
Section Registry.
Context {K : Type} `{Countable K} {V : Type}.
(** [V::specialise()] for the key's [T]: a pure constructor of the table. *)
Variable specialise : K -> V.

(** A [Record] holds the [&'static V] returned by [Box::leak]: its address
    and the (immutable) table it points at, a [nat * V].
    [RegistryInternals], plus the heap of leaked tables: [built] lists every
    table [Box::leak] has produced, with the key it was specialised for. *)
Record Reg := mkReg {
  types : gmap K (nat * V);
  built : list (K * nat);
  next_addr : nat
}.

Definition reg_empty : Reg := mkReg ∅ [] 0.

(** The [Entry::Vacant] arm: specialise, leak, insert. *)
Definition vacant_insert (k : K) (r : Reg) : Reg * (nat * V) :=
  let vtable := (next_addr r, specialise k) in
  (mkReg (<[k := vtable]> (types r)) ((k, next_addr r) :: built r) (S (next_addr r)), vtable).

(** [Registry::get_or_create], run by one thread holding the write lock. *)
Definition get_or_create (k : K) (r : Reg) : Reg * (nat * V) :=
  match types r !! k with
  | Some record => (r, record)
  | None => vacant_insert k r
  end.

(** [Registry::try_get] (the test module's read-locked lookup): the record
    under the key, if any.  A record holds the table reference directly, so
    the [downcast_ref::<&'static V>().unwrap()] of the source is the
    identity here, as in [get_or_create]'s [Occupied] arm. *)
Definition try_get (k : K) (r : Reg) : option (nat * V) := types r !! k.

(** *** Concurrent callers

    Each thread runs [get_or_create] as the sequence of its statements:
    [self.internals.write()], [entry(key)], the [Vacant] arm's insertion,
    and the drop of the guard on return. *)
Inductive pc :=
| Idle
| Acquiring (k : K)
| Locked (k : K)
| VacantEntry (k : K)
| Releasing (k : K) (vtable : (nat * V)).

Record World := mkWorld {
  reg : Reg;
  lock : option nat;            (** the writer holding the [RwLock] *)
  threads : gmap nat pc;
  returned : list (K * nat)     (** every completed call: key, address *)
}.

Inductive step : World -> World -> Prop :=
| step_call w i k :
    threads w !! i = Some Idle ->
    step w (mkWorld (reg w) (lock w) (<[i := Acquiring k]> (threads w)) (returned w))
| step_acquire w i k :
    threads w !! i = Some (Acquiring k) ->
    lock w = None ->
    step w (mkWorld (reg w) (Some i) (<[i := Locked k]> (threads w)) (returned w))
| step_occupied w i k record :
    threads w !! i = Some (Locked k) ->
    types (reg w) !! k = Some record ->
    step w (mkWorld (reg w) (lock w) (<[i := Releasing k record]> (threads w)) (returned w))
| step_vacant w i k :
    threads w !! i = Some (Locked k) ->
    types (reg w) !! k = None ->
    step w (mkWorld (reg w) (lock w) (<[i := VacantEntry k]> (threads w)) (returned w))
| step_insert w i k :
    threads w !! i = Some (VacantEntry k) ->
    step w (mkWorld (vacant_insert k (reg w)).1 (lock w)
              (<[i := Releasing k (vacant_insert k (reg w)).2]> (threads w)) (returned w))
| step_release w i k vtable :
    threads w !! i = Some (Releasing k vtable) ->
    step w (mkWorld (reg w) None (<[i := Idle]> (threads w)) ((k, vtable.1) :: returned w)).

(** Any number of threads, all idle, and the lazily created empty registry. *)
Definition initial (w : World) : Prop :=
  reg w = reg_empty /\ lock w = None /\ returned w = [] /\
  map_Forall (fun _ p => p = Idle) (threads w).

Definition reachable (w : World) : Prop :=
  exists w0, initial w0 /\ rtc step w0 w.

(** Every held table is the one specialised for its key. *)
Definition tables_specialised (r : Reg) : Prop :=
  forall k record, types r !! k = Some record -> record.2 = specialise k.

Definition in_cs (p : pc) : Prop :=
  match p with Locked _ | VacantEntry _ | Releasing _ _ => True | _ => False end.

(** The invariant of every reachable world. *)
Record reg_inv (w : World) : Prop := {
  inv_built : forall k, filter (fun p : K * nat => p.1 = k) (built (reg w)) =
                        match types (reg w) !! k with
                        | None => []
                        | Some record => [(k, record.1)]
                        end;
  inv_lock : forall i p, threads w !! i = Some p -> in_cs p -> lock w = Some i;
  inv_vacant : forall i k, threads w !! i = Some (VacantEntry k) -> types (reg w) !! k = None;
  inv_releasing : forall i k record,
      threads w !! i = Some (Releasing k record) -> types (reg w) !! k = Some record;
  inv_returned : forall k l, (k, l) ∈ returned w ->
      exists record, types (reg w) !! k = Some record /\ record.1 = l
}.

End Registry.

(** ** lib.rs and ched.rs: the operation table and the dynamic value *)

(** The native [Clone], [Debug], [PartialEq] and [Hash] of every type the
    [ched::VTable] is specialised for ([T: Clone + Debug + Eq + Hash]);
    [n_hash] is the byte sequence [T::hash] feeds into the hasher. *)
Class NativeOps `{RustTypes} := {
  n_clone : forall t, denote t -> denote t;
  n_fmt : forall t, denote t -> string;
  n_eq : forall t, denote t -> denote t -> bool;
  n_hash : forall t, denote t -> list Byte.byte
}.

Section Ched.
Context `{RT : RustTypes} {NO : @NativeOps RT}.
(** [TypeId::of::<ched::VTable>()]. *)
Variable vtable_ty : ty.

Definition is_ok_and {A E} (r : result A E) (f : A -> bool) : bool :=
  match r with Ok a => f a | Err _ => false end.

(** [lib.rs]: the four generic table entries. *)
Definition clone (T : ty) (this : Every) : outcome Every :=
  value ← unwrap_or_else (downcast_ref T this) panic;
  Returns (existT T (n_clone T value)).

Definition debug (T : ty) (this : Every) : outcome string :=
  value ← unwrap_or_else (downcast_ref T this) panic;
  Returns (n_fmt T value).

Definition partial_eq (T : ty) (this other : Every) : outcome bool :=
  lhs ← unwrap_or_else (downcast_ref T this) panic;
  let rhs := downcast_ref T other in
  Returns (is_ok_and rhs (fun rhs => n_eq T lhs rhs)).

Definition hash (T : ty) (this : Every) : outcome (list Byte.byte) :=
  this ← unwrap_or_else (downcast_ref T this) panic;
  Returns (n_hash T this).

Record VTable := mkVTable {
  vt_clone : Every -> outcome Every;
  vt_debug : Every -> outcome string;
  vt_partial_eq : Every -> Every -> outcome bool;
  vt_hash : Every -> outcome (list Byte.byte)
}.

(** [impl Specialise<T> for VTable]. *)
Definition specialise (T : ty) : VTable :=
  mkVTable (clone T) (debug T) (partial_eq T) (hash T).

(** The registry key [(TypeId::of::<T>(), TypeId::of::<V>())] and the
    factory it runs for the key. *)
Definition ched_specialise (key : ty * ty) : VTable := specialise key.1.

(** [vtable::Token<T, VTable>]: a [&'static VTable] (address and table);
    [T] is a phantom marker. *)
Record Token (T : ty) := mkToken { vtable_ref : nat * VTable }.
Arguments mkToken {T} _.
Arguments vtable_ref {T} _.

(** The registry's entries for [ched::VTable]. *)
Definition ChedReg : Type := @Reg (ty * ty) _ _ VTable.

(** [Token::default()]: resolve through the registry. *)
Definition token_default (T : ty) (r : ChedReg) : ChedReg * Token T :=
  let '(r', vtable) := get_or_create ched_specialise (T, vtable_ty) r in
  (r', mkToken vtable).

Record CHED := mkCHED {
  inner : Every;
  vtable : nat * VTable
}.

Definition CHED_new (T : ty) (value : denote T) (tok : Token T) : CHED :=
  mkCHED (existT T value) (vtable_ref tok).

Definition inner_ (self : CHED) : Every := inner self.

(** [inner_mut]: a [&mut Box<dyn Every>] into the dynamic value. *)
Definition inner_mut (self : CHED) : MutRef Every CHED :=
  {| mr_get := inner self; mr_set := fun b => mkCHED b (vtable self) |}.

Definition into_inner (self : CHED) : Every := inner self.

Definition CHED_fmt (self : CHED) : outcome string :=
  vt_debug (vtable self).2 (inner self).

Definition CHED_clone (self : CHED) : outcome CHED :=
  inner ← vt_clone (vtable self).2 (inner self);
  Returns (mkCHED inner (vtable self)).

Definition CHED_eq (self other : CHED) : outcome bool :=
  vt_partial_eq (vtable self).2 (inner self) (inner other).

Definition CHED_hash (self : CHED) : outcome (list Byte.byte) :=
  vt_hash (vtable self).2 (inner self).

(** [*d.inner_mut().downcast_mut::<T>()? = f(old)]: a write through a
    mutable downcast of the payload. *)
Definition write_through_downcast (T : ty) (d : CHED) (f : denote T -> denote T)
  : result CHED DowncastError :=
  let im := inner_mut d in
  match downcast_mut T (mr_get im) with
  | Ok r => Ok (mr_set im (mr_set r (f (mr_get r))))
  | Err e => Err e
  end.

(** [*d.inner_mut() = b]: a write of a whole new box. *)
Definition replace_inner (d : CHED) (b : Every) : CHED := mr_set (inner_mut d) b.

(** The spec's invariant: the table is the one specialised for the
    payload's runtime type. *)
Definition ched_wf (d : CHED) : Prop := (vtable d).2 = specialise (type_id (inner d)).

(** Every table the registry holds was specialised for its key. *)
Definition reg_wf (r : ChedReg) : Prop :=
  forall key record, types r !! key = Some record -> record.2 = ched_specialise key.

(** *** [std::collections::HashMap<CHED, A>]

    Keys are stored with their hash; an insertion probes the entries whose
    hash matches and compares [k == stored]; on a match the value is
    replaced and the old one returned ([Some]), otherwise the entry is
    added ([None]). [finish] is the hasher applied to the fed bytes. *)
Section HashMap.
Variable finish : list Byte.byte -> Z.
Context {A : Type}.

Fixpoint hm_probe (k : CHED) (h : Z) (m : list (Z * CHED * A)) (v : A)
  : outcome (option (A * list (Z * CHED * A))) :=
  match m with
  | [] => Returns None
  | (h', k', v') :: rest =>
      let further :=
        o ← hm_probe k h rest v;
        Returns (option_map (fun p : A * list (Z * CHED * A) => (p.1, (h', k', v') :: p.2)) o) in
      if Z.eqb h h' then
        bind_outcome (CHED_eq k k') (fun b : bool =>
          if b then Returns (Some (v', (h', k', v) :: rest)) else further)
      else further
  end.

Definition hm_insert (m : list (Z * CHED * A)) (k : CHED) (v : A)
  : outcome (option A * list (Z * CHED * A)) :=
  bs ← CHED_hash k;
  let h := finish bs in
  bind_outcome (hm_probe k h m v) (fun o =>
    match o with
    | Some (old, m') => Returns (Some old, m')
    | None => Returns (None, (m ++ [(h, k, v)])%list)
    end).

(** The map's own invariant: each stored key satisfies [ched_wf] and is
    stored with the hash of its bytes. *)
Definition hm_entry_ok (hk : Z * CHED) : Prop :=
  ched_wf hk.2 /\ exists bs, CHED_hash hk.2 = Returns bs /\ hk.1 = finish bs.

Definition hm_wf (m : list (Z * CHED * A)) : Prop :=
  Forall hm_entry_ok (map (fun e : Z * CHED * A => e.1) m).

End HashMap.

(** *** Boxes on the heap

    [Box<dyn Every>] is an owned pointer: a dynamic value holds the address
    of its box, and the heap maps each live address to the erased value the
    box holds. [Box::new] allocates at a fresh address. *)
Record Heap := mkHeap {
  cells : gmap nat Every;
  next_loc : nat
}.

Definition box_new (e : Every) (h : Heap) : nat * Heap :=
  (next_loc h, mkHeap (<[next_loc h := e]> (cells h)) (S (next_loc h))).

(** Every live box was allocated before the next fresh address. *)
Definition heap_wf (h : Heap) : Prop :=
  forall l e, cells h !! l = Some e -> l < next_loc h.

(** [CHED] with [inner] as the address of its box. *)
Record HCHED := mkHCHED {
  hinner : nat;
  hvtable : nat * VTable
}.

(** [impl Clone for CHED] on the heap: the table's clone entry reads
    [&*self.inner] and clones the payload, and its final [Box::new(cloned)]
    allocates the new box; the table reference is copied.  [None]: the box
    address dangles, which safe code never reaches. *)
Definition HCHED_clone (self : HCHED) (h : Heap) : option (outcome (HCHED * Heap)) :=
  match cells h !! hinner self with
  | None => None
  | Some e => Some (
      cloned ← vt_clone (hvtable self).2 e;
      let '(l, h') := box_new cloned h in
      Returns (mkHCHED l (hvtable self), h'))
  end.

(** [*d.inner_mut().downcast_mut::<T>()? = f(old)] on the heap: the write
    lands in the cell of [d]'s box. *)
Definition hwrite_through_downcast (T : ty) (d : HCHED) (f : denote T -> denote T) (h : Heap)
  : option (result Heap DowncastError) :=
  match cells h !! hinner d with
  | None => None
  | Some e => Some (
      match downcast_mut T e with
      | Ok r => Ok (mkHeap (<[hinner d := mr_set r (f (mr_get r))]> (cells h)) (next_loc h))
      | Err err => Err err
      end)
  end.

(** One successful mutation of [d]'s payload through a mutable downcast, at
    any type and with any new value. *)
Inductive mutate_step (d : HCHED) : Heap -> Heap -> Prop :=
| mutate_step_intro h h' (T : ty) (f : denote T -> denote T) :
    hwrite_through_downcast T d f h = Some (Ok h') -> mutate_step d h h'.
End Ched.

Arguments mkToken {RT T} _.
Arguments vtable_ref {RT T} _.

(** ** A concrete program: the types the crate's tests use *)
Module Concrete.

Inductive cty := TI32 | TU32 | TStr | TChedVTable.

#[global] Instance cty_eq_dec : EqDecision cty.
Proof. solve_decision. Defined.

Definition cty_to_nat (t : cty) : nat :=
  match t with TI32 => 0 | TU32 => 1 | TStr => 2 | TChedVTable => 3 end.

Definition cty_of_nat (n : nat) : cty :=
  match n with 0 => TI32 | 1 => TU32 | 2 => TStr | _ => TChedVTable end.

#[global] Instance cty_countable : Countable cty.
Proof. refine (inj_countable' cty_to_nat cty_of_nat _). by intros []. Defined.

(** [i32] and [u32] as [Z], [&str] as a string; [ched::VTable] has no
    value of interest here. *)
Definition cdenote (t : cty) : Type :=
  match t with TI32 => Z | TU32 => Z | TStr => string | TChedVTable => unit end.

Definition cname (t : cty) : string :=
  match t with
  | TI32 => "i32" | TU32 => "u32" | TStr => "&str" | TChedVTable => "vtable::ched::VTable"
  end.

#[global] Instance crust : RustTypes := {|
  ty := cty; denote := cdenote; type_name := cname
|}.

Definition byte_of_Z (z : Z) : Byte.byte :=
  match Byte.of_N (Z.to_N (Z.land z 255)) with Some b => b | None => Byte.x00 end.

(** [write_i32] / [write_u32]: four bytes, little endian. *)
Definition int_bytes (z : Z) : list Byte.byte :=
  map (fun i => byte_of_Z (Z.shiftr z (8 * i))) [0; 1; 2; 3]%Z.

(** [str::hash]: the bytes, then [0xff]. *)
Definition str_bytes (s : string) : list Byte.byte :=
  (map Ascii.byte_of_ascii (list_ascii_of_string s) ++ [Byte.xff])%list.

Definition quote : string := String (Ascii.ascii_of_nat 34) EmptyString.

Definition cclone (t : cty) : cdenote t -> cdenote t :=
  match t with TI32 | TU32 | TStr | TChedVTable => fun x => x end.

Definition backslash : Ascii.ascii := Ascii.ascii_of_nat 92.

Definition hex_digit (n : nat) : Ascii.ascii :=
  Ascii.ascii_of_nat (if Nat.ltb n 10 then 48 + n else 87 + n)%nat.

(** [\u{..}]: the code in lower-case hex, without leading zeros (ASCII codes
    need at most two digits). *)
Definition escape_unicode (n : nat) : string :=
  String backslash (String "u" (String "{" (
    (if Nat.ltb n 16 then String (hex_digit n) EmptyString
     else String (hex_digit (Nat.div n 16)) (String (hex_digit (Nat.modulo n 16)) EmptyString))
    ++ "}"))).

(** [char::escape_debug] as [<str as Debug>::fmt] applies it to each ASCII
    character: [\0], [\t], [\r], [\n], an escaped backslash and double
    quote, [\u{..}] for the other control characters, and every printable
    character (the single quote included) as itself.  Bytes above [0x7f]
    (parts of non-ASCII characters) are written as they are. *)
Definition escape_debug_char (c : Ascii.ascii) : string :=
  let n := Ascii.nat_of_ascii c in
  if Nat.eqb n 0 then String backslash "0"
  else if Nat.eqb n 9 then String backslash "t"
  else if Nat.eqb n 13 then String backslash "r"
  else if Nat.eqb n 10 then String backslash "n"
  else if Nat.eqb n 92 then String backslash (String backslash EmptyString)
  else if Nat.eqb n 34 then String backslash quote
  else if orb (Nat.ltb n 32) (Nat.eqb n 127) then escape_unicode n
  else String c EmptyString.

Fixpoint escape_debug (s : string) : string :=
  match s with
  | EmptyString => EmptyString
  | String c rest => escape_debug_char c ++ escape_debug rest
  end.

Definition cfmt (t : cty) : cdenote t -> string :=
  match t with
  | TI32 | TU32 => fun z => pretty z
  | TStr => fun s => quote ++ escape_debug s ++ quote
  | TChedVTable => fun _ => "VTable"
  end.

Definition ceq (t : cty) : cdenote t -> cdenote t -> bool :=
  match t with
  | TI32 | TU32 => Z.eqb
  | TStr => String.eqb
  | TChedVTable => fun _ _ => true
  end.

Definition chash (t : cty) : cdenote t -> list Byte.byte :=
  match t with
  | TI32 | TU32 => int_bytes
  | TStr => str_bytes
  | TChedVTable => fun _ => []
  end.

#[global] Instance cops : @NativeOps crust := {|
  n_clone := cclone; n_fmt := cfmt; n_eq := ceq; n_hash := chash
|}.

Definition erased (t : cty) (v : cdenote t) : @Every crust := existT t v.

(** [Token::<i32>::default()] on the fresh registry, then again, then
    [Token::<&str>::default()]. *)
Definition reg1 : ChedReg (RT := crust) := (token_default TChedVTable TI32 reg_empty).1.
Definition tok_i32 : Token (RT := crust) TI32 := (token_default TChedVTable TI32 reg_empty).2.
Definition reg2 : ChedReg (RT := crust) := (token_default TChedVTable TI32 reg1).1.
Definition tok_i32' : Token (RT := crust) TI32 := (token_default TChedVTable TI32 reg1).2.
Definition tok_str : Token (RT := crust) TStr := (token_default TChedVTable TStr reg2).2.

Definition d42 : CHED := CHED_new TI32 42%Z tok_i32.
Definition d42' : CHED := CHED_new TI32 42%Z tok_i32'.
Definition dfoo : CHED := CHED_new TStr "foo" tok_str.
Definition d43 : CHED := CHED_new TI32 43%Z tok_i32.

(** [CHED::new(42i32, &tok)] on the heap: its box at address [0]. *)
Definition heap42 : Heap (RT := crust) := mkHeap (<[0 := erased TI32 42%Z]> ∅) 1.
Definition hd42 : HCHED (RT := crust) := mkHCHED 0 (vtable_ref tok_i32).

(** [*d42.inner_mut() = Box::new("foo")]. *)
Definition d42_swapped : CHED := replace_inner d42 (erased TStr "foo").

(** Two threads resolving the same key against the fresh registry; the
    table kind is irrelevant here, so tables are [()]. *)
Definition spec_unit (k : nat) : unit := tt.

Definition w_start : @World nat _ _ unit :=
  mkWorld reg_empty None (<[1 := Idle]> (<[0 := Idle]> ∅)) [].

(** Thread [0] has returned from [get_or_create] for key [7]; thread [1]
    has called it and waits for the lock. *)
Definition w_mid : @World nat _ _ unit :=
  mkWorld (mkReg (<[7 := (0, tt)]> ∅) [(7, 0)] 1) None
          (<[1 := Acquiring 7]> (<[0 := Idle]> ∅)) [(7, 0)].

(** Both threads have called [get_or_create] for key [7]. *)
Definition w_end : @World nat _ _ unit :=
  mkWorld (mkReg (<[7 := (0, tt)]> ∅) [(7, 0)] 1) None
          (<[1 := Idle]> (<[0 := Idle]> ∅)) [(7, 0); (7, 0)].

End Concrete.

(** * Proofs *)

(** ** The downcast layer *)
Section EveryFacts.
Context `{RT : RustTypes}.

Lemma decide_self_left (T : ty) :
  exists H : T = T, decide (T = T) = left H.
Proof. destruct (decide (T = T)) as [H|H]; [by exists H | done]. Qed.

Lemma cast_refl (T : ty) (v : denote T) (H : T = T) : eq_rect_r denote v H = v.
Proof. by rewrite (proof_irrel H eq_refl). Qed.

Lemma __downcast_ref_self (T : ty) (v : denote T) :
  __downcast_ref T (existT T v) = Some v.
Proof.
  unfold __downcast_ref; simpl. destruct (decide (T = T)) as [H|]; [|done].
  by rewrite cast_refl.
Qed.

Lemma __downcast_ref_other (T : ty) (e : Every) :
  type_id e <> T -> __downcast_ref T e = None.
Proof. unfold __downcast_ref, type_id. destruct (decide _); [congruence | done]. Qed.

Lemma __downcast_mut_other (T : ty) (e : Every) :
  type_id e <> T -> __downcast_mut T e = None.
Proof. unfold __downcast_mut, type_id. destruct (decide _); [congruence | done]. Qed.

Lemma __downcast_self (T : ty) (v : denote T) :
  __downcast T (existT T v) = Ok v.
Proof.
  unfold __downcast; simpl. destruct (decide (T = T)) as [H|]; [|done].
  by rewrite cast_refl.
Qed.

Lemma __downcast_other (T : ty) (e : Every) :
  type_id e <> T -> __downcast T e = Err e.
Proof. unfold __downcast, type_id. destruct (decide _); [congruence | done]. Qed.

Lemma downcast_ref_self (T : ty) (v : denote T) :
  downcast_ref T (existT T v) = Ok v.
Proof. unfold downcast_ref. by rewrite __downcast_ref_self. Qed.

Lemma downcast_ref_other (T : ty) (e : Every) :
  type_id e <> T -> downcast_ref T e = Err (cannot_downcast T e).
Proof. intros Hne. unfold downcast_ref. by rewrite __downcast_ref_other. Qed.

Lemma downcast_mut_self (T : ty) (v : denote T) :
  exists r, downcast_mut T (existT T v) = Ok r /\ mr_get r = v /\
            forall v', mr_set r v' = existT T v'.
Proof.
  unfold downcast_mut, __downcast_mut; simpl.
  destruct (decide (T = T)) as [H|]; [|done]. simpl.
  eexists; split; [reflexivity|]. simpl. by rewrite cast_refl.
Qed.

Lemma is_spec (T : ty) (e : Every) : is T e = true <-> type_id e = T.
Proof. unfold is. rewrite bool_decide_eq_true. split; congruence. Qed.

(** C1: [is] decides type identity; [downcast_ref] and [downcast_mut]
    return the unchanged value at the true type, and otherwise an error
    whose source fields name the value's type and whose target fields
    name [T]. *)
Theorem downcast_correct (T : ty) (e : Every) :
  (is T e = true <-> type_id e = T) /\
  (forall v : denote T, e = existT T v ->
     downcast_ref T e = Ok v /\
     exists r, downcast_mut T e = Ok r /\ mr_get r = v) /\
  (type_id e <> T ->
     let err := {| source_type_id := type_id e;
                   source_type_name := type_name (type_id e);
                   target_type_id := T;
                   target_type_name := type_name T |} in
     downcast_ref T e = Err err /\ downcast_mut T e = Err err).
Proof.
  split; [apply is_spec|split].
  - intros v ->. split; [apply downcast_ref_self|].
    destruct (downcast_mut_self T v) as (r & Hr & Hg & _). by exists r.
  - intros Hne. split.
    + by rewrite downcast_ref_other.
    + unfold downcast_mut. by rewrite __downcast_mut_other.
Qed.

Lemma box_downcast_self (T : ty) (v : denote T) :
  box_downcast T (existT T v) = Ok v.
Proof. unfold box_downcast. by rewrite __downcast_self. Qed.

(** C2 (as the code does it): on a type mismatch the internal [__downcast]
    hands the box back unchanged, but [downcast] maps it to a
    [DowncastError] that carries only the two types and their names; the
    erased value itself is dropped, not returned. *)
Theorem box_downcast_mismatch (T : ty) (e : Every) (Hne : type_id e <> T) :
  __downcast T e = Err e /\
  box_downcast T e = Err {| source_type_id := type_id e;
                            source_type_name := type_name (type_id e);
                            target_type_id := T;
                            target_type_name := type_name T |}.
Proof.
  rewrite __downcast_other by done. split; [done|].
  unfold box_downcast. by rewrite __downcast_other.
Qed.

(** X1: the consuming [BoxDowncast::downcast] gives exactly the result of
    [downcast_ref]: the same value at the true type, the same error
    otherwise. *)
Theorem box_downcast_agrees_downcast_ref (T : ty) (e : Every) :
  box_downcast T e = downcast_ref T e.
Proof.
  destruct e as [T0 v0].
  unfold box_downcast, downcast_ref, __downcast, __downcast_ref, ok_or_else,
    map_err, map_result. simpl.
  by destruct (decide (T = T0)).
Qed.

(** X2: [is], [downcast_ref] and [downcast_mut] agree: [is] holds exactly
    when [downcast_ref] succeeds, [downcast_mut] succeeds exactly when
    [downcast_ref] does and points at the same value, and both fail with
    the same error. *)
Theorem downcast_checks_agree (T : ty) (e : Every) :
  (is T e = true <-> exists v, downcast_ref T e = Ok v) /\
  (forall v, downcast_ref T e = Ok v <-> exists r, downcast_mut T e = Ok r /\ mr_get r = v) /\
  (forall err, downcast_ref T e = Err err <-> downcast_mut T e = Err err).
Proof.
  destruct e as [T0 v0].
  unfold is, type_id, downcast_ref, downcast_mut, __downcast_ref, __downcast_mut, ok_or_else.
  simpl. destruct (decide (T = T0)) as [H|H].
  - destruct H. rewrite bool_decide_eq_true. simpl.
    split; [split; [intros _; by eexists | done]|].
    split; [|done].
    intros v. split.
    + intros [= <-]. by eexists.
    + intros (r & [= <-] & <-). done.
  - rewrite bool_decide_eq_true. split; [split; [congruence | by intros []]|].
    split; [|intros err; split; by intros [= <-]].
    intros v. split; [done | by intros (r & ? & _)].
Qed.

(** X3: every error of [downcast_ref], [downcast_mut] or [downcast] is
    [cannot_downcast] of the requested type and the value: its source is the
    value's type, its target the requested type, and the two differ. *)
Theorem downcast_error_fields (T : ty) (e : Every) (err : DowncastError)
    (H : downcast_ref T e = Err err \/ downcast_mut T e = Err err \/
         box_downcast T e = Err err) :
  err = cannot_downcast T e /\ source_type_id err = type_id e /\
  target_type_id err = T /\ source_type_id err <> target_type_id err.
Proof.
  assert (Herr : err = cannot_downcast T e /\ type_id e <> T).
  { destruct e as [T0 v0]. revert H.
    unfold downcast_ref, downcast_mut, box_downcast, __downcast_ref, __downcast_mut,
      __downcast, ok_or_else, map_err, map_result, type_id. simpl.
    destruct (decide (T = T0)) as [HT|HT].
    - by intros [?|[?|?]].
    - intros [[= <-]|[[= <-]|[= <-]]]; split; congruence. }
  destruct Herr as [-> Hne]. simpl. split; [done|]. split; [done|]. split; [done|]. done.
Qed.

End EveryFacts.

(** ** The registry *)
Section RegistryFacts.
Context {K : Type} `{Countable K} {V : Type}.
Variable specialise : K -> V.

Lemma get_or_create_hit (k : K) (r : Reg) (record : nat * V) :
  types r !! k = Some record -> get_or_create specialise k r = (r, record).
Proof. intros Hk. unfold get_or_create. by rewrite Hk. Qed.

Lemma get_or_create_miss (k : K) (r : Reg) :
  types r !! k = None -> get_or_create specialise k r = vacant_insert specialise k r.
Proof. intros Hk. unfold get_or_create. by rewrite Hk. Qed.

Lemma get_or_create_specialised (k : K) (r r' : Reg) (record : nat * V) :
  tables_specialised specialise r -> get_or_create specialise k r = (r', record) ->
  tables_specialised specialise r' /\ record.2 = specialise k.
Proof.
  intros Hr. unfold get_or_create. destruct (types r !! k) as [rec|] eqn:Hk.
  - intros [= <- <-]. split; [done|]. by apply Hr.
  - unfold vacant_insert. intros [= <- <-]. split; [|done].
    intros k' rec'. simpl. rewrite lookup_insert.
    case_decide; [intros [= <-]; by subst | apply Hr].
Qed.

Lemma reg_inv_initial (w : @World K _ _ V) : initial w -> reg_inv w.
Proof.
  intros (Hreg & Hlock & Hret & Hthr). unfold map_Forall in Hthr.
  constructor; rewrite ?Hreg, ?Hret.
  - intros k. simpl. by rewrite lookup_empty.
  - intros i p Hi. rewrite (Hthr i p Hi). done.
  - intros i k Hi. by pose proof (Hthr i _ Hi).
  - intros i k record Hi. by pose proof (Hthr i _ Hi).
  - intros k l Hin. by apply elem_of_nil in Hin.
Qed.

(** While one thread is inside the critical section, no other is. *)
Lemma cs_exclusive (w : @World K _ _ V) i j p q :
  reg_inv w -> threads w !! i = Some p -> in_cs p ->
  threads w !! j = Some q -> in_cs q -> i = j.
Proof.
  intros Hinv Hi Hp Hj Hq.
  pose proof (inv_lock _ Hinv i p Hi Hp) as Li.
  pose proof (inv_lock _ Hinv j q Hj Hq) as Lj. congruence.
Qed.

Ltac thread_lookup Hj :=
  simpl in Hj; rewrite lookup_insert in Hj; case_decide as Hij;
  [subst; apply (f_equal (fun o => match o with Some q => q | None => Idle end)) in Hj;
   simpl in Hj; subst | ].

Lemma reg_inv_step (w w' : @World K _ _ V) :
  reg_inv w -> step specialise w w' -> reg_inv w'.
Proof.
  intros Hinv Hstep. destruct Hstep as
    [w i k Hi | w i k Hi Hl | w i k record Hi Hk | w i k Hi Hk | w i k Hi | w i k vt Hi].
  - (* call *)
    constructor; simpl; try apply Hinv.
    + intros j p Hj Hp. thread_lookup Hj; [done | by eapply inv_lock].
    + intros j k' Hj. thread_lookup Hj; [done | by eapply inv_vacant].
    + intros j k' r Hj. thread_lookup Hj; [done | by eapply inv_releasing].
  - (* acquire *)
    constructor; simpl; try apply Hinv.
    + intros j p Hj Hp. thread_lookup Hj; [done|].
      pose proof (inv_lock _ Hinv j p Hj Hp). congruence.
    + intros j k' Hj. thread_lookup Hj; [done | by eapply inv_vacant].
    + intros j k' r Hj. thread_lookup Hj; [done | by eapply inv_releasing].
  - (* Entry::Occupied *)
    constructor; simpl; try apply Hinv.
    + intros j p Hj Hp. thread_lookup Hj.
      * by apply (inv_lock _ Hinv j (Locked k)).
      * by eapply inv_lock.
    + intros j k' Hj. thread_lookup Hj; [done | by eapply inv_vacant].
    + intros j k' r Hj. thread_lookup Hj; [congruence | by eapply inv_releasing].
  - (* Entry::Vacant *)
    constructor; simpl; try apply Hinv.
    + intros j p Hj Hp. thread_lookup Hj.
      * by apply (inv_lock _ Hinv j (Locked k)).
      * by eapply inv_lock.
    + intros j k' Hj. thread_lookup Hj; [congruence | by eapply inv_vacant].
    + intros j k' r Hj. thread_lookup Hj; [done | by eapply inv_releasing].
  - (* VacantEntry::insert *)
    pose proof (inv_vacant _ Hinv i k Hi) as Hnone.
    constructor; simpl.
    + intros k'. rewrite filter_cons, lookup_insert. simpl.
      pose proof (inv_built _ Hinv k') as Hb.
      repeat case_decide; subst; try congruence.
      rewrite Hb, Hnone. done.
    + intros j p Hj Hp. thread_lookup Hj.
      * by apply (inv_lock _ Hinv j (VacantEntry k)).
      * by eapply inv_lock.
    + intros j k' Hj. thread_lookup Hj; [done|].
      exfalso. apply Hij. by apply (cs_exclusive w i j (VacantEntry k) (VacantEntry k')).
    + intros j k' r Hj. thread_lookup Hj.
      * injection Hj as <- <-. simpl. by rewrite lookup_insert_eq.
      * exfalso. apply Hij.
        by apply (cs_exclusive w i j (VacantEntry k) (Releasing k' r)).
    + intros k' l Hin.
      destruct (inv_returned _ Hinv k' l Hin) as (r & Hr & Hl).
      exists r. rewrite lookup_insert. case_decide; [subst; congruence | done].
  - (* drop of the write guard *)
    constructor; simpl; try apply Hinv.
    + intros j p Hj Hp. thread_lookup Hj; [done|].
      pose proof (inv_lock _ Hinv j p Hj Hp).
      pose proof (inv_lock _ Hinv i _ Hi I). congruence.
    + intros j k' Hj. thread_lookup Hj; [done | by eapply inv_vacant].
    + intros j k' r Hj. thread_lookup Hj; [done | by eapply inv_releasing].
    + intros k' l Hin. apply elem_of_cons in Hin as [[= -> ->] | Hin].
      * exists vt. split; [by eapply inv_releasing | done].
      * by apply (inv_returned _ Hinv).
Qed.

Lemma reg_inv_reachable (w : @World K _ _ V) : reachable specialise w -> reg_inv w.
Proof.
  intros (w0 & Hinit & Hrtc). apply reg_inv_initial in Hinit.
  induction Hrtc as [|x y z Hxy _ IH]; [done|].
  apply IH. by eapply reg_inv_step.
Qed.

(** C4: in every world reachable by any interleaving of threads calling
    [get_or_create], each key has had at most one table built, every call
    for a key returned that one table, and so all calls for a key returned
    the same reference. *)
Theorem get_or_create_single_table (w : @World K _ _ V) (Hw : reachable specialise w) :
  (forall k, length (filter (fun p : K * nat => p.1 = k) (built (reg w))) <= 1) /\
  (forall k l, (k, l) ∈ returned w ->
     filter (fun p : K * nat => p.1 = k) (built (reg w)) = [(k, l)]) /\
  (forall k l1 l2, (k, l1) ∈ returned w -> (k, l2) ∈ returned w -> l1 = l2).
Proof.
  pose proof (reg_inv_reachable w Hw) as Hinv.
  split; [|split].
  - intros k. rewrite (inv_built _ Hinv k). by destruct (types (reg w) !! k); simpl; lia.
  - intros k l Hin. rewrite (inv_built _ Hinv k).
    destruct (inv_returned _ Hinv k l Hin) as (r & -> & <-). done.
  - intros k l1 l2 H1 H2.
    destruct (inv_returned _ Hinv k l1 H1) as (r1 & E1 & <-).
    destruct (inv_returned _ Hinv k l2 H2) as (r2 & E2 & <-). congruence.
Qed.

(** X4: on the fresh registry [try_get] finds nothing; after
    [get_or_create] for a key, [try_get] finds the very table the call
    returned. *)
Theorem try_get_after_get_or_create (k : K) (r : Reg) :
  try_get k (@reg_empty K _ _ V) = None /\
  try_get k (get_or_create specialise k r).1 = Some (get_or_create specialise k r).2.
Proof.
  split; [apply lookup_empty|].
  unfold try_get, get_or_create. destruct (types r !! k) as [rec|] eqn:E; simpl; [done|].
  by rewrite lookup_insert_eq.
Qed.

(** X5: [get_or_create] never changes a table already registered (under any
    key), and a second call for the same key returns the same table and
    leaves the registry as it is. *)
Theorem get_or_create_stable (k : K) (r : Reg) :
  get_or_create specialise k (get_or_create specialise k r).1 = get_or_create specialise k r /\
  forall k' record, try_get k' r = Some record ->
    try_get k' (get_or_create specialise k r).1 = Some record.
Proof.
  unfold get_or_create, try_get. destruct (types r !! k) as [rec|] eqn:E; simpl.
  - rewrite E. done.
  - rewrite lookup_insert_eq. split; [done|].
    intros k' record Hk'. rewrite lookup_insert. case_decide; [subst; congruence | done].
Qed.

Lemma step_keeps_entry (w w' : @World K _ _ V) k record :
  reg_inv w -> step specialise w w' ->
  types (reg w) !! k = Some record -> types (reg w') !! k = Some record.
Proof.
  intros Hinv Hstep Hk. destruct Hstep as [| | | |w i k' Hi|]; simpl; try done.
  pose proof (inv_vacant _ Hinv i k' Hi) as Hnone.
  rewrite lookup_insert. case_decide; [subst; congruence | done].
Qed.

Lemma reachable_step (w w' : @World K _ _ V) :
  reachable specialise w -> step specialise w w' -> reachable specialise w'.
Proof.
  intros (w0 & Hinit & Hrtc) Hs. exists w0. split; [done|]. by eapply rtc_r.
Qed.

(** X6: along any interleaving of calls, a table once registered for a key
    stays registered, unchanged, for that key. *)
Theorem registry_entries_persist (w w' : @World K _ _ V) (Hw : reachable specialise w)
    (Hs : rtc (step specialise) w w') :
  forall k record, types (reg w) !! k = Some record -> types (reg w') !! k = Some record.
Proof.
  induction Hs as [|x y z Hxy _ IH]; [done|].
  intros k record Hk. apply IH; [by eapply reachable_step|].
  eapply step_keeps_entry; [by apply reg_inv_reachable | done | done].
Qed.

(** X7: in every reachable world, each registered table is the one
    specialised for its key, and every call returned the table specialised
    for the key it asked for. *)
Theorem reachable_tables_specialised (w : @World K _ _ V) (Hw : reachable specialise w) :
  tables_specialised specialise (reg w) /\
  forall k l, (k, l) ∈ returned w ->
    exists record, types (reg w) !! k = Some record /\ record.1 = l /\ record.2 = specialise k.
Proof.
  assert (Hts : tables_specialised specialise (reg w)).
  { destruct Hw as (w0 & (Hreg & _) & Hrtc).
    assert (H0 : tables_specialised specialise (reg w0)).
    { rewrite Hreg. intros k rec. simpl. by rewrite lookup_empty. }
    clear Hreg. induction Hrtc as [|x y z Hxy _ IH]; [done|]. apply IH.
    destruct Hxy as [| | | |x i k Hi|]; simpl; try done.
    intros k' rec. unfold vacant_insert. simpl. rewrite lookup_insert.
    case_decide; [intros [= <-]; by subst | apply H0]. }
  split; [done|]. intros k l Hin.
  destruct (inv_returned _ (reg_inv_reachable w Hw) k l Hin) as (rec & E & L).
  exists rec. split; [done|]. split; [done|]. by apply Hts.
Qed.

End RegistryFacts.

(** ** The table entries and the dynamic value *)
Section ChedFacts.
Context `{RT : RustTypes} {NO : @NativeOps RT}.
Variable vtable_ty : ty.

Lemma partial_eq_self_type (T : ty) (v : denote T) (b : Every) :
  partial_eq T (existT T v) b =
  Returns (is_ok_and (downcast_ref T b) (fun rhs => n_eq T v rhs)).
Proof. unfold partial_eq. by rewrite downcast_ref_self. Qed.

(** C10: the [T]-specialised equality panics with the downcast message when
    its first argument is not a [T], and returns [false] when only the
    second one is not. *)
Theorem partial_eq_asymmetric (T : ty) (a b : Every) :
  (type_id a <> T ->
     partial_eq T a b =
     Panics ("cannot downcast " ++ type_name (type_id a) ++ " into " ++ type_name T)) /\
  (type_id a = T -> type_id b <> T -> partial_eq T a b = Returns false).
Proof.
  split.
  - intros Hne. unfold partial_eq. rewrite (downcast_ref_other T a Hne). reflexivity.
  - destruct a as [Ta va]. unfold type_id; simpl. intros <- Hb.
    rewrite partial_eq_self_type. by rewrite downcast_ref_other.
Qed.

Lemma downcast_ref_ok_inv (T : ty) (e : Every) (v : denote T) :
  downcast_ref T e = Ok v -> e = existT T v.
Proof.
  destruct e as [T' v']. unfold downcast_ref, __downcast_ref; simpl.
  destruct (decide (T = T')) as [H|]; [|done]. destruct H.
  unfold eq_rect_r. simpl. intros Heq. injection Heq as Heq. by subst v.
Qed.

Lemma ched_wf_inv (d : CHED) :
  ched_wf d -> exists T v, inner d = existT T v /\ (vtable d).2 = specialise T.
Proof. destruct d as [[T v] vt]. unfold ched_wf, type_id. simpl. intros H. by exists T, v. Qed.

Lemma CHED_eq_wf (d other : CHED) (T : ty) (v : denote T) :
  (vtable d).2 = specialise T -> inner d = existT T v ->
  CHED_eq d other = Returns (is_ok_and (downcast_ref T (inner other)) (fun rhs => n_eq T v rhs)).
Proof.
  intros Hvt Hin. unfold CHED_eq. rewrite Hvt, Hin. simpl. apply partial_eq_self_type.
Qed.

Lemma CHED_hash_wf (d : CHED) (T : ty) (v : denote T) :
  (vtable d).2 = specialise T -> inner d = existT T v ->
  CHED_hash d = Returns (n_hash T v).
Proof.
  intros Hvt Hin. unfold CHED_hash. rewrite Hvt, Hin. simpl. unfold hash.
  by rewrite downcast_ref_self.
Qed.

Lemma CHED_clone_wf (d : CHED) (T : ty) (v : denote T) :
  (vtable d).2 = specialise T -> inner d = existT T v ->
  CHED_clone d = Returns (mkCHED (existT T (n_clone T v)) (vtable d)).
Proof.
  intros Hvt Hin. unfold CHED_clone. rewrite Hvt, Hin. simpl. unfold clone.
  by rewrite downcast_ref_self.
Qed.

Lemma reg_wf_tables (r : ChedReg) : reg_wf r <-> tables_specialised ched_specialise r.
Proof. done. Qed.

Lemma token_default_spec (T : ty) (r r' : ChedReg) (tok : Token T) :
  reg_wf r -> token_default vtable_ty T r = (r', tok) ->
  reg_wf r' /\ (vtable_ref tok).2 = specialise T.
Proof.
  intros Hr. unfold token_default.
  destruct (get_or_create ched_specialise (T, vtable_ty) r) as [r'' vt] eqn:E.
  intros [= <- <-]. simpl.
  apply (get_or_create_specialised ched_specialise) in E as [E1 E2]; [|done].
  split; [done|]. by rewrite E2.
Qed.

Lemma CHED_new_wf (T : ty) (v : denote T) (tok : Token T) :
  (vtable_ref tok).2 = specialise T -> ched_wf (CHED_new T v tok).
Proof. intros H. exact H. Qed.

Lemma reg_empty_wf : reg_wf reg_empty.
Proof. intros k r. simpl. by rewrite lookup_empty. Qed.

(** C3: two dynamic values (each with the table of its payload's type)
    whose payloads have different runtime types are unequal; the [false]
    comes from the failed downcast of the second payload, before any native
    comparison. *)
Theorem CHED_eq_different_types (d1 d2 : CHED) (H1 : ched_wf d1) (H2 : ched_wf d2)
    (Hne : type_id (inner d1) <> type_id (inner d2)) :
  CHED_eq d1 d2 = Returns false.
Proof.
  destruct (ched_wf_inv d1 H1) as (T & v & Hin & Hvt).
  rewrite (CHED_eq_wf d1 d2 T v Hvt Hin).
  rewrite Hin in Hne. unfold type_id in Hne. simpl in Hne.
  rewrite downcast_ref_other; [done|]. unfold type_id. congruence.
Qed.

(** C5: dynamic values built from [v1] and [v2] of type [T], with tokens
    each resolved by its own registry lookup, compare as [v1 == v2]. *)
Theorem CHED_eq_native (T : ty) (v1 v2 : denote T) (r1 r1' r2 r2' : ChedReg)
    (tok1 tok2 : Token T) (Hr1 : reg_wf r1) (Hr2 : reg_wf r2)
    (E1 : token_default vtable_ty T r1 = (r1', tok1))
    (E2 : token_default vtable_ty T r2 = (r2', tok2)) :
  CHED_eq (CHED_new T v1 tok1) (CHED_new T v2 tok2) = Returns (n_eq T v1 v2).
Proof.
  destruct (token_default_spec T r1 r1' tok1 Hr1 E1) as [_ Ht1].
  rewrite (CHED_eq_wf (CHED_new T v1 tok1) (CHED_new T v2 tok2) T v1 Ht1 eq_refl). simpl.
  by rewrite downcast_ref_self.
Qed.

Lemma CHED_eq_total (a b : CHED) : ched_wf a -> exists bo, CHED_eq a b = Returns bo.
Proof.
  intros Ha. destruct (ched_wf_inv a Ha) as (T & va & Hin & Hvt).
  rewrite (CHED_eq_wf a b T va Hvt Hin). by eexists.
Qed.

Lemma CHED_eq_true_inv (a b : CHED) :
  ched_wf a -> CHED_eq a b = Returns true ->
  exists T va vb, inner a = existT T va /\ inner b = existT T vb /\
                  (vtable a).2 = specialise T /\ n_eq T va vb = true.
Proof.
  intros Ha. destruct (ched_wf_inv a Ha) as (T & va & Hin & Hvt).
  rewrite (CHED_eq_wf a b T va Hvt Hin).
  destruct (downcast_ref T (inner b)) as [vb|] eqn:Hb; simpl; [|done].
  intros [= Hv]. exists T, va, vb. repeat split; try done.
  by apply downcast_ref_ok_inv.
Qed.

Section HashFacts.
(** The contracts of [Eq] and [Hash]: [==] is transitive, and equal values
    hash equally. *)
Hypothesis n_eq_trans : forall t x y z, n_eq t x y = true -> n_eq t y z = true -> n_eq t x z = true.
Hypothesis n_eq_hash : forall t x y, n_eq t x y = true -> n_hash t x = n_hash t y.

Lemma CHED_eq_true_hash (a b : CHED) :
  ched_wf a -> ched_wf b -> CHED_eq a b = Returns true ->
  exists bs, CHED_hash a = Returns bs /\ CHED_hash b = Returns bs.
Proof.
  intros Ha Hb Heq.
  destruct (CHED_eq_true_inv a b Ha Heq) as (T & va & vb & Hia & Hib & Hvt & Hn).
  assert (Hvtb : (vtable b).2 = specialise T) by (rewrite Hb, Hib; done).
  exists (n_hash T va). split; [by apply CHED_hash_wf|].
  rewrite (CHED_hash_wf b T vb Hvtb Hib). by rewrite (n_eq_hash T va vb Hn).
Qed.

Lemma CHED_eq_true_trans (a b c : CHED) :
  ched_wf a -> ched_wf b -> CHED_eq a b = Returns true -> CHED_eq b c = Returns true ->
  CHED_eq a c = Returns true.
Proof.
  intros Ha Hb Hab Hbc.
  destruct (CHED_eq_true_inv a b Ha Hab) as (T & va & vb & Hia & Hib & Hvt & Hn).
  destruct (CHED_eq_true_inv b c Hb Hbc) as (T' & vb' & vc & Hib' & Hic & _ & Hn').
  rewrite Hib in Hib'. pose proof (f_equal (@projT1 _ _) Hib') as HT. simpl in HT. subst T'.
  apply (Eqdep_dec.inj_pair2_eq_dec ty ty_eq_dec) in Hib'. subst vb'. rewrite (CHED_eq_wf a c T va Hvt Hia), Hic. simpl.
  rewrite downcast_ref_self. simpl. f_equal. by apply (n_eq_trans T va vb vc).
Qed.

Section Probe.
Context {A : Type}.

Lemma hm_probe_some (k : CHED) (h : Z) (m m' : list (Z * CHED * A)) (v old : A) :
  hm_probe k h m v = Returns (Some (old, m')) ->
  map (fun e : Z * CHED * A => e.1) m' = map (fun e : Z * CHED * A => e.1) m.
Proof.
  revert m'. induction m as [|[[h' k'] v'] rest IH]; intros m'; simpl; [done|].
  assert (Hfur : bind_outcome (hm_probe k h rest v)
      (fun o => Returns (option_map (fun p : A * list (Z * CHED * A) =>
                 (p.1, (h', k', v') :: p.2)) o)) = Returns (Some (old, m')) ->
      map (fun e : Z * CHED * A => e.1) m' = (h', k') :: map (fun e : Z * CHED * A => e.1) rest).
  { destruct (hm_probe k h rest v) as [[[o r]|]|] eqn:E; simpl; try done.
    intros [= <- <-]. simpl. by rewrite (IH r eq_refl). }
  destruct (Z.eqb h h'); [|apply Hfur].
  destruct (CHED_eq k k') as [[|]|]; simpl; [|apply Hfur|done].
  by intros [= <- <-].
Qed.

Lemma hm_probe_some_found (k : CHED) (h : Z) (m m' : list (Z * CHED * A)) (v old : A) :
  hm_probe k h m v = Returns (Some (old, m')) ->
  exists e, e ∈ m' /\ CHED_eq k e.1.2 = Returns true.
Proof.
  revert m'. induction m as [|[[h' k'] v'] rest IH]; intros m'; simpl; [done|].
  assert (Hfur : bind_outcome (hm_probe k h rest v)
      (fun o => Returns (option_map (fun p : A * list (Z * CHED * A) =>
                 (p.1, (h', k', v') :: p.2)) o)) = Returns (Some (old, m')) ->
      exists e, e ∈ m' /\ CHED_eq k e.1.2 = Returns true).
  { destruct (hm_probe k h rest v) as [[[o r]|]|] eqn:E; simpl; try done.
    intros [= <- <-]. destruct (IH r eq_refl) as (e & He & Heq).
    exists e. split; [by apply elem_of_cons; right | done]. }
  destruct (Z.eqb h h'); [|apply Hfur].
  destruct (CHED_eq k k') as [[|]|] eqn:Ek; simpl; [|apply Hfur|done].
  intros [= <- <-]. exists (h', k', v). split; [apply elem_of_cons; by left | done].
Qed.

Lemma hm_probe_finds (k : CHED) (h : Z) (m : list (Z * CHED * A)) (v : A) :
  ched_wf k ->
  (exists e, e ∈ m /\ e.1.1 = h /\ CHED_eq k e.1.2 = Returns true) ->
  exists old m', hm_probe k h m v = Returns (Some (old, m')) /\ length m' = length m.
Proof.
  intros Hk. induction m as [|[[h' k'] v'] rest IH]; intros (e & Hin & Hh & He).
  - by apply elem_of_nil in Hin.
  - simpl.
    assert (Hfur : (exists e, e ∈ rest /\ e.1.1 = h /\ CHED_eq k e.1.2 = Returns true) ->
      exists old m', bind_outcome (hm_probe k h rest v)
        (fun o => Returns (option_map (fun p : A * list (Z * CHED * A) =>
                   (p.1, (h', k', v') :: p.2)) o)) = Returns (Some (old, m')) /\
        length m' = S (length rest)).
    { intros Hex. destruct (IH Hex) as (old & r & -> & Hl). simpl.
      exists old, ((h', k', v') :: r). simpl. by rewrite Hl. }
    apply elem_of_cons in Hin as [-> | Hin]; simpl in Hh, He.
    + subst h'. rewrite Z.eqb_refl, He. simpl. by eexists _, _.
    + destruct (Z.eqb h h').
      * destruct (CHED_eq_total k k' Hk) as [[|] ->]; simpl.
        -- by eexists _, _.
        -- apply Hfur. by exists e.
      * apply Hfur. by exists e.
Qed.

Lemma hm_insert_spec (finish : list Byte.byte -> Z) (m m1 : list (Z * CHED * A))
    (d : CHED) (v : A) (o : option A) :
  hm_wf finish m -> ched_wf d -> hm_insert finish m d v = Returns (o, m1) ->
  hm_wf finish m1 /\
  exists e, e ∈ m1 /\ (e.1.2 = d \/ CHED_eq d e.1.2 = Returns true).
Proof.
  intros Hm Hd. destruct (ched_wf_inv d Hd) as (T & vd & Hin & Hvt).
  unfold hm_insert. rewrite (CHED_hash_wf d T vd Hvt Hin). simpl.
  destruct (hm_probe d (finish (n_hash T vd)) m v) as [[[old m']|]|] eqn:Hp; simpl; [| |done].
  - intros [= <- <-]. split.
    + unfold hm_wf. by rewrite (hm_probe_some _ _ _ _ _ _ Hp).
    + destruct (hm_probe_some_found _ _ _ _ _ _ Hp) as (e & He & Heq).
      exists e. split; [done | by right].
  - intros [= <- <-]. split.
    + unfold hm_wf. rewrite map_app, Forall_app. split; [done|].
      apply Forall_singleton. split; [done|]. exists (n_hash T vd).
      split; [by apply CHED_hash_wf | done].
    + exists (finish (n_hash T vd), d, v). split; [|by left].
      apply elem_of_app. right. by apply list_elem_of_singleton.
Qed.
End Probe.

(** C6: two dynamic values that compare equal feed the same bytes into the
    hasher; and so, in a [HashMap] whose keys all satisfy [ched_wf], a
    second insertion of an equal key finds the stored one, overwrites its
    value (returning [Some]) and adds no entry. *)
Theorem CHED_hash_consistent (d1 d2 : CHED) (H1 : ched_wf d1) (H2 : ched_wf d2)
    (Heq : CHED_eq d1 d2 = Returns true) :
  (exists bs, CHED_hash d1 = Returns bs /\ CHED_hash d2 = Returns bs) /\
  forall (finish : list Byte.byte -> Z) (A : Type) (m m1 : list (Z * CHED * A))
         (v v' : A) (o : option A),
    hm_wf finish m -> hm_insert finish m d2 v = Returns (o, m1) ->
    exists old m2, hm_insert finish m1 d1 v' = Returns (Some old, m2) /\
                   length m2 = length m1.
Proof.
  split; [by apply CHED_eq_true_hash|].
  intros finish A m m1 v v' o Hm Hins.
  destruct (hm_insert_spec finish m m1 d2 v o Hm H2 Hins) as (Hm1 & e & He & Hor).
  assert (Hwfe : hm_entry_ok finish e.1).
  { unfold hm_wf in Hm1. rewrite Forall_forall in Hm1. apply Hm1.
    apply (in_map (fun e : Z * CHED * A => e.1)). by apply list_elem_of_In. }
  destruct Hwfe as (Hwf & bs & Hh & Hst).
  assert (Hde : CHED_eq d1 e.1.2 = Returns true).
  { destruct Hor as [-> | Hor]; [done|]. by apply (CHED_eq_true_trans d1 d2). }
  destruct (CHED_eq_true_hash d1 e.1.2 H1 Hwf Hde) as (bs' & Hh1 & Hhe).
  rewrite Hh in Hhe. injection Hhe as <-.
  unfold hm_insert. rewrite Hh1. simpl.
  destruct (hm_probe_finds d1 (finish bs) m1 v' H1) as (old & m2 & Hp & Hl).
  { exists e. by rewrite Hst. }
  rewrite Hp. simpl. by exists old, m2.
Qed.

End HashFacts.

Lemma write_through_downcast_ok (T : ty) (d d' : CHED) (f : denote T -> denote T) :
  write_through_downcast T d f = Ok d' ->
  exists v, inner d = existT T v /\ d' = mkCHED (existT T (f v)) (vtable d).
Proof.
  destruct d as [[T0 v0] vt]. unfold write_through_downcast, downcast_mut, __downcast_mut.
  simpl. destruct (decide (T = T0)) as [H|]; [|done]. destruct H. simpl.
  intros [= <-]. exists v0. split; [done|]. unfold eq_rect_r. done.
Qed.

Lemma write_through_downcast_wf (T : ty) (d d' : CHED) (f : denote T -> denote T) :
  ched_wf d -> write_through_downcast T d f = Ok d' -> ched_wf d'.
Proof.
  intros Hd Hw. destruct (write_through_downcast_ok T d d' f Hw) as (v & Hin & ->).
  unfold ched_wf in *. rewrite Hin in Hd. exact Hd.
Qed.

Lemma CHED_clone_preserves_wf (d c : CHED) :
  ched_wf d -> CHED_clone d = Returns c -> ched_wf c.
Proof.
  intros Hd. destruct (ched_wf_inv d Hd) as (T & v & Hin & Hvt).
  rewrite (CHED_clone_wf d T v Hvt Hin). intros [= <-]. exact Hvt.
Qed.

Lemma mutate_step_frame (d : HCHED) (h h' : Heap) (l : nat) :
  mutate_step d h h' -> l <> hinner d -> cells h' !! l = cells h !! l /\ next_loc h' = next_loc h.
Proof.
  intros [h0 h1 T f Hw] Hl. unfold hwrite_through_downcast in Hw.
  destruct (cells h0 !! hinner d) as [e|]; [|done].
  destruct (downcast_mut T e) as [r|]; [|done].
  injection Hw as <-. simpl. split; [|done]. rewrite lookup_insert_ne; [done | congruence].
Qed.

Lemma mutate_steps_frame (d : HCHED) (h h' : Heap) (l : nat) :
  rtc (mutate_step d) h h' -> l <> hinner d -> cells h' !! l = cells h !! l.
Proof.
  intros Hr Hl. induction Hr as [|x y z Hxy _ IH]; [done|].
  rewrite IH. by apply (mutate_step_frame d x y l Hxy Hl).
Qed.

(** C8: on the heap of boxes, [clone] of a dynamic value whose table is the
    one for its payload's type [T] allocates a new box, at an address
    different from the original's, holding [T::clone] of the payload, and
    copies the table reference; it touches no other box.  Afterwards a
    write through a mutable downcast of the original lands in the
    original's box, and after any sequence of such writes the clone's box
    still holds the clone. *)
Theorem CHED_clone_independent (d : HCHED) (h : Heap) (T : ty) (v : denote T)
    (Hh : heap_wf h) (Hwf : (hvtable d).2 = specialise T)
    (Hin : cells h !! hinner d = Some (existT T v)) :
  exists c h1, HCHED_clone d h = Some (Returns (c, h1)) /\
    hvtable c = hvtable d /\ hinner c <> hinner d /\
    cells h1 !! hinner c = Some (existT T (n_clone T v)) /\
    (forall l, l <> hinner c -> cells h1 !! l = cells h !! l) /\ heap_wf h1 /\
    (forall (f : denote T -> denote T) h2, hwrite_through_downcast T d f h1 = Some (Ok h2) ->
       cells h2 !! hinner d = Some (existT T (f v))) /\
    (forall h2, rtc (mutate_step d) h1 h2 ->
       cells h2 !! hinner c = Some (existT T (n_clone T v))).
Proof.
  pose proof (Hh _ _ Hin) as Hlt.
  assert (Hin' : cells h !! hinner d = @Some Every (existT T v)) by exact Hin.
  set (h1 := mkHeap (<[next_loc h := existT T (n_clone T v)]> (cells h)) (S (next_loc h))).
  exists (mkHCHED (next_loc h) (hvtable d)), h1.
  assert (Hd1 : cells h1 !! hinner d = @Some Every (existT T v)).
  { simpl. rewrite lookup_insert_ne; [done | lia]. }
  split.
  { unfold HCHED_clone. rewrite Hin'. simpl. rewrite Hwf. simpl. unfold clone.
    by rewrite downcast_ref_self. }
  split; [done|]. split; [simpl; lia|].
  split; [simpl; by rewrite lookup_insert_eq|].
  split; [intros l Hl; simpl in Hl |- *; by rewrite lookup_insert_ne|].
  split.
  { intros l e. simpl. rewrite lookup_insert. case_decide; [lia|].
    intros He. pose proof (Hh l e He). lia. }
  split.
  - intros f h2. unfold hwrite_through_downcast. rewrite Hd1.
    destruct (downcast_mut_self T v) as (r & Hr & Hg & Hs). rewrite Hr.
    intros [= <-]. simpl. by rewrite lookup_insert_eq, Hg, Hs.
  - intros h2 Hr. simpl. transitivity (cells h1 !! next_loc h).
    + apply (mutate_steps_frame d h1 h2 (next_loc h) Hr). simpl. lia.
    + simpl. by rewrite lookup_insert_eq.
Qed.

(** X8: a [T]-specialised table entry ([clone], [debug] or [hash]) panics
    with "cannot downcast U into T" on a value of another type [U], and on a
    [T] returns the native result: a fresh box of [T::clone], [T::fmt], or
    the bytes [T::hash] feeds. *)
Theorem table_entries_dispatch (T : ty) (a : Every) :
  (type_id a <> T ->
     clone T a = Panics ("cannot downcast " ++ type_name (type_id a) ++ " into " ++ type_name T) /\
     debug T a = Panics ("cannot downcast " ++ type_name (type_id a) ++ " into " ++ type_name T) /\
     hash T a = Panics ("cannot downcast " ++ type_name (type_id a) ++ " into " ++ type_name T)) /\
  (forall v, a = existT T v ->
     clone T a = Returns (existT T (n_clone T v)) /\ debug T a = Returns (n_fmt T v) /\
     hash T a = Returns (n_hash T v)).
Proof.
  split.
  - intros Hne. unfold clone, debug, hash. rewrite (downcast_ref_other T a Hne).
    split; [|split]; reflexivity.
  - intros v ->. unfold clone, debug, hash. rewrite downcast_ref_self.
    split; [|split]; reflexivity.
Qed.

(** X9: a dynamic value built with a token from [Token::default] (on a
    registry whose tables match their keys) has the table of its payload's
    type, the registry keeps that property, and [clone] and writes through
    [inner_mut().downcast_mut()] preserve the table invariant. *)
Theorem ched_wf_lifecycle (T : ty) (v : denote T) (r r' : ChedReg) (tok : Token T)
    (Hr : reg_wf r) (E : token_default vtable_ty T r = (r', tok)) :
  ched_wf (CHED_new T v tok) /\ reg_wf r' /\
  (forall d c, ched_wf d -> CHED_clone d = Returns c -> ched_wf c) /\
  (forall (U : ty) (f : denote U -> denote U) d d',
     ched_wf d -> write_through_downcast U d f = Ok d' -> ched_wf d').
Proof.
  destruct (token_default_spec T r r' tok Hr E) as [Hr' Ht].
  split; [by apply CHED_new_wf|]. split; [done|].
  split; [apply CHED_clone_preserves_wf|].
  intros U f d d'. apply write_through_downcast_wf.
Qed.

(** X10: [format!("{d:?}")] of a dynamic value built from [v] with a token
    from [Token::default] is [v]'s own [Debug] output. *)
Theorem CHED_fmt_new (T : ty) (v : denote T) (r r' : ChedReg) (tok : Token T)
    (Hr : reg_wf r) (E : token_default vtable_ty T r = (r', tok)) :
  CHED_fmt (CHED_new T v tok) = Returns (n_fmt T v).
Proof.
  destruct (token_default_spec T r r' tok Hr E) as [_ Ht].
  unfold CHED_fmt. simpl. rewrite Ht. simpl. unfold debug. by rewrite downcast_ref_self.
Qed.

(** X11: the payload of [CHED::new(v, tok)] comes back out: [inner()]
    downcasts by reference to [v], [into_inner()] downcasts by value to [v],
    and [into_inner()] downcast to any other type [U] fails with the error
    naming [T] and [U], which [unwrap_or_else(panic)] turns into the panic
    "cannot downcast T into U". *)
Theorem CHED_into_inner_downcast (T : ty) (v : denote T) (tok : Token T) :
  downcast_ref T (inner_ (CHED_new T v tok)) = Ok v /\
  box_downcast T (into_inner (CHED_new T v tok)) = Ok v /\
  forall U, U <> T ->
    box_downcast U (into_inner (CHED_new T v tok)) = Err (cannot_downcast U (existT T v)) /\
    unwrap_or_else (box_downcast U (into_inner (CHED_new T v tok))) panic =
      Panics ("cannot downcast " ++ type_name T ++ " into " ++ type_name U).
Proof.
  split; [apply downcast_ref_self|]. split; [apply box_downcast_self|].
  intros U HU. unfold into_inner, CHED_new. simpl.
  assert (H : box_downcast U (existT T v) = Err (cannot_downcast U (existT T v))).
  { unfold box_downcast. rewrite __downcast_other; [done|]. unfold type_id. simpl. congruence. }
  rewrite H. split; reflexivity.
Qed.

Section NativeContracts.
(** The contracts of [Eq] and [Clone]: [==] is reflexive and symmetric, and
    a clone equals its original. *)
Hypothesis n_eq_refl : forall t x, n_eq t x x = true.
Hypothesis n_eq_sym : forall t x y, n_eq t x y = n_eq t y x.
Hypothesis n_eq_clone : forall t x, n_eq t x (n_clone t x) = true.

(** X12: a dynamic value with the table of its payload's type equals
    itself, and equals its clone, which again has the right table. *)
Theorem CHED_eq_refl_clone (d : CHED) (Hd : ched_wf d) :
  CHED_eq d d = Returns true /\
  exists c, CHED_clone d = Returns c /\ CHED_eq d c = Returns true /\ ched_wf c.
Proof.
  destruct (ched_wf_inv d Hd) as (T & v & Hin & Hvt).
  split.
  - rewrite (CHED_eq_wf d d T v Hvt Hin), Hin, downcast_ref_self. simpl.
    by rewrite n_eq_refl.
  - exists (mkCHED (existT T (n_clone T v)) (vtable d)).
    split; [by apply CHED_clone_wf|]. split.
    + rewrite (CHED_eq_wf _ _ T v Hvt Hin). simpl. rewrite downcast_ref_self. simpl.
      by rewrite n_eq_clone.
    + unfold ched_wf. simpl. exact Hvt.
Qed.

(** X13: between dynamic values that each have the table of their
    payload's type, [==] is symmetric: neither order panics, and both give
    the same answer. *)
Theorem CHED_eq_sym (d1 d2 : CHED) (H1 : ched_wf d1) (H2 : ched_wf d2) :
  (exists b, CHED_eq d1 d2 = Returns b) /\ CHED_eq d1 d2 = CHED_eq d2 d1.
Proof.
  split; [by apply CHED_eq_total|].
  destruct (ched_wf_inv d1 H1) as (T1 & v1 & Hin1 & Hvt1).
  destruct (ched_wf_inv d2 H2) as (T2 & v2 & Hin2 & Hvt2).
  rewrite (CHED_eq_wf d1 d2 T1 v1 Hvt1 Hin1), (CHED_eq_wf d2 d1 T2 v2 Hvt2 Hin2), Hin1, Hin2.
  destruct (decide (T1 = T2)) as [<-|Hne].
  - rewrite !downcast_ref_self. simpl. by rewrite n_eq_sym.
  - rewrite (downcast_ref_other T1 (existT T2 v2)), (downcast_ref_other T2 (existT T1 v1));
      [reflexivity | unfold type_id; simpl; congruence | unfold type_id; simpl; congruence].
Qed.
End NativeContracts.

Section HashInsert.
Context {A : Type}.

Lemma hm_probe_total (k : CHED) (h : Z) (m : list (Z * CHED * A)) (v : A) :
  ched_wf k -> exists o, hm_probe k h m v = Returns o.
Proof.
  intros Hk. induction m as [|[[h' k'] v'] rest [o Ho]]; simpl; [by eexists|].
  rewrite Ho. simpl. destruct (Z.eqb h h'); [|by eexists].
  destruct (CHED_eq_total k k' Hk) as [b ->]. simpl. destruct b; by eexists.
Qed.

Lemma hm_probe_none (k : CHED) (h : Z) (m : list (Z * CHED * A)) (v : A) :
  (forall e, e ∈ m -> e.1.1 = h -> CHED_eq k e.1.2 = Returns false) ->
  hm_probe k h m v = Returns None.
Proof.
  induction m as [|[[h' k'] v'] rest IH]; intros Hf; simpl; [done|].
  rewrite IH; [|intros e He; apply Hf; apply elem_of_cons; by right]. simpl.
  destruct (Z.eqb h h') eqn:Eh; [|done]. apply Z.eqb_eq in Eh.
  pose proof (Hf (h', k', v') ltac:(apply elem_of_cons; by left) ltac:(simpl; congruence)) as Hk'.
  simpl in Hk'. rewrite Hk'. done.
Qed.

(** X14: [HashMap::insert] with a dynamic key never panics because of the
    keys already stored: it returns whenever the new key has the table of
    its payload's type, and when the key's table is specialised for another
    type it panics, in hashing the key, with "cannot downcast U into T". *)
Theorem hm_insert_panics_only_on_key (finish : list Byte.byte -> Z)
    (m : list (Z * CHED * A)) (d : CHED) (v : A) :
  (ched_wf d -> exists o m1, hm_insert finish m d v = Returns (o, m1)) /\
  (forall T, (vtable d).2 = specialise T -> type_id (inner d) <> T ->
     hm_insert finish m d v =
       Panics ("cannot downcast " ++ type_name (type_id (inner d)) ++ " into " ++ type_name T)).
Proof.
  split.
  - intros Hd. destruct (ched_wf_inv d Hd) as (T & vd & Hin & Hvt).
    unfold hm_insert. rewrite (CHED_hash_wf d T vd Hvt Hin). simpl.
    destruct (hm_probe_total d (finish (n_hash T vd)) m v Hd) as [o Ho]. rewrite Ho. simpl.
    destruct o as [[old m']|]; by eexists _, _.
  - intros T Hvt Hne. unfold hm_insert, CHED_hash. rewrite Hvt. simpl. unfold hash.
    rewrite (downcast_ref_other T (inner d) Hne). reflexivity.
Qed.

(** X15: inserting a key (with the table of its payload's type) that
    compares unequal to every stored key adds one entry at the end, stored
    with the hash of the key's bytes, returns [None], and keeps the map's
    invariant. *)
Theorem hm_insert_fresh (finish : list Byte.byte -> Z) (m : list (Z * CHED * A))
    (d : CHED) (v : A) (Hm : hm_wf finish m) (Hd : ched_wf d)
    (Hfresh : forall e, e ∈ m -> CHED_eq d e.1.2 = Returns false) :
  exists bs, CHED_hash d = Returns bs /\
    hm_insert finish m d v = Returns (None, (m ++ [(finish bs, d, v)])%list) /\
    hm_wf finish (m ++ [(finish bs, d, v)])%list.
Proof.
  destruct (ched_wf_inv d Hd) as (T & vd & Hin & Hvt).
  exists (n_hash T vd). split; [by apply CHED_hash_wf|]. split.
  - unfold hm_insert. rewrite (CHED_hash_wf d T vd Hvt Hin). simpl.
    rewrite hm_probe_none; [done|]. intros e He _. by apply Hfresh.
  - unfold hm_wf. rewrite map_app, Forall_app. split; [done|].
    apply Forall_singleton. split; [done|]. exists (n_hash T vd).
    split; [by apply CHED_hash_wf | done].
Qed.
End HashInsert.

End ChedFacts.

(** ** The concrete program *)
Module ConcreteFacts.
Import Concrete.

Lemma w_start_initial : initial w_start.
Proof.
  split; [done|]. split; [done|]. split; [done|].
  intros i p Hi. simpl in Hi. rewrite lookup_insert in Hi. case_decide; [by simplify_eq|].
  rewrite lookup_insert in Hi. case_decide; [by simplify_eq|]. by rewrite lookup_empty in Hi.
Qed.

Lemma w_end_reachable : reachable spec_unit w_end.
Proof.
  exists w_start. split; [apply w_start_initial|].
  eapply rtc_l; [apply (step_call spec_unit w_start 0 7); reflexivity|].
  eapply rtc_l; [apply (step_call spec_unit _ 1 7); reflexivity|].
  eapply rtc_l; [apply (step_acquire spec_unit _ 0 7); reflexivity|].
  eapply rtc_l; [apply (step_vacant spec_unit _ 0 7); reflexivity|].
  eapply rtc_l; [apply (step_insert spec_unit _ 0 7); reflexivity|].
  eapply rtc_l; [apply (step_release spec_unit _ 0 7 (0, tt)); reflexivity|].
  eapply rtc_l; [apply (step_acquire spec_unit _ 1 7); reflexivity|].
  eapply rtc_l; [apply (step_occupied spec_unit _ 1 7 (0, tt)); reflexivity|].
  eapply rtc_l; [apply (step_release spec_unit _ 1 7 (0, tt)); reflexivity|].
  apply rtc_refl.
Qed.

Lemma cops_eq_trans (t : cty) (x y z : cdenote t) :
  ceq t x y = true -> ceq t y z = true -> ceq t x z = true.
Proof.
  destruct t; simpl; try done.
  - rewrite !Z.eqb_eq. congruence.
  - rewrite !Z.eqb_eq. congruence.
  - rewrite !String.eqb_eq. congruence.
Qed.

Lemma cops_eq_hash (t : cty) (x y : cdenote t) : ceq t x y = true -> chash t x = chash t y.
Proof.
  destruct t; simpl; try done.
  - rewrite Z.eqb_eq. by intros ->.
  - rewrite Z.eqb_eq. by intros ->.
  - rewrite String.eqb_eq. by intros ->.
Qed.

Lemma d42_wf : ched_wf d42.
Proof. reflexivity. Qed.

Lemma d42_swapped_not_wf : ~ ched_wf d42_swapped.
Proof.
  unfold ched_wf. intros H.
  apply (f_equal (fun vt => vt_partial_eq vt (erased TI32 0%Z) (erased TI32 0%Z))) in H.
  vm_compute in H. discriminate H.
Qed.

(** C2 does not hold as stated: a failed consuming [downcast] cannot hand
    the erased value back, since [42i32] and [43i32] downcast to [u32] fail
    with the same error. *)
Lemma box_downcast_loses_value :
  ~ exists recover : DowncastError -> Every,
      forall (T : ty) (e : Every) (err : DowncastError),
        is T e = false -> box_downcast T e = Err err -> recover err = e.
Proof.
  intros (recover & Hrec).
  pose (err := {| source_type_id := TI32; source_type_name := "i32";
                  target_type_id := TU32; target_type_name := "u32" |}
               : DowncastError (RT := crust)).
  assert (E42 := Hrec TU32 (erased TI32 42%Z) err eq_refl eq_refl).
  assert (E43 := Hrec TU32 (erased TI32 43%Z) err eq_refl eq_refl).
  rewrite E42 in E43. unfold erased in E43.
  apply (Eqdep_dec.inj_pair2_eq_dec cty cty_eq_dec) in E43. discriminate E43.
Qed.

(** C2, witness. *)
Lemma box_downcast_mismatch_witness :
  type_id (erased TI32 42%Z) <> TU32 /\
  __downcast TU32 (erased TI32 42%Z) = Err (erased TI32 42%Z) /\
  box_downcast TU32 (erased TI32 42%Z) =
    Err {| source_type_id := type_id (erased TI32 42%Z);
           source_type_name := type_name (type_id (erased TI32 42%Z));
           target_type_id := TU32;
           target_type_name := type_name TU32 |}.
Proof.
  split; [discriminate|]. apply box_downcast_mismatch. discriminate.
Defined.

(** C3, witness: [42i32] and ["foo"]. *)
Lemma CHED_eq_different_types_witness :
  ched_wf d42 /\ ched_wf dfoo /\ type_id (inner d42) <> type_id (inner dfoo) /\
  CHED_eq d42 dfoo = Returns false.
Proof.
  split; [reflexivity|]. split; [reflexivity|]. split; [discriminate|].
  apply CHED_eq_different_types; [reflexivity | reflexivity | discriminate].
Defined.

(** C4, witness: two threads resolving key [7]. *)
Lemma get_or_create_single_table_witness :
  reachable spec_unit w_end /\
  (forall k, length (filter (fun p : nat * nat => p.1 = k) (built (reg w_end))) <= 1) /\
  (forall k l, (k, l) ∈ returned w_end ->
     filter (fun p : nat * nat => p.1 = k) (built (reg w_end)) = [(k, l)]) /\
  (forall k l1 l2, (k, l1) ∈ returned w_end -> (k, l2) ∈ returned w_end -> l1 = l2).
Proof.
  split; [apply w_end_reachable|].
  apply (get_or_create_single_table spec_unit w_end). apply w_end_reachable.
Defined.

(** C5, witness: the second token comes from a second lookup. *)
Lemma CHED_eq_native_witness :
  reg_wf reg_empty /\ reg_wf reg1 /\
  token_default TChedVTable TI32 reg_empty = (reg1, tok_i32) /\
  token_default TChedVTable TI32 reg1 = (reg2, tok_i32') /\
  CHED_eq (CHED_new TI32 42%Z tok_i32) (CHED_new TI32 42%Z tok_i32') = Returns (n_eq TI32 42%Z 42%Z).
Proof.
  assert (H1 : reg_wf reg1).
  { apply (token_default_spec (RT := crust) TChedVTable TI32 reg_empty reg1 tok_i32 reg_empty_wf). reflexivity. }
  split; [apply reg_empty_wf|]. split; [exact H1|]. split; [reflexivity|]. split; [reflexivity|].
  apply (CHED_eq_native (RT := crust) TChedVTable TI32 42%Z 42%Z reg_empty reg1 reg1 reg2);
    [apply reg_empty_wf | exact H1 | reflexivity | reflexivity].
Defined.

(** C6, witness: [42i32] behind two tokens from separate lookups. *)
Lemma CHED_hash_consistent_witness :
  (forall t (x y z : denote (RustTypes := crust) t),
      n_eq t x y = true -> n_eq t y z = true -> n_eq t x z = true) /\
  (forall t (x y : denote (RustTypes := crust) t), n_eq t x y = true -> n_hash t x = n_hash t y) /\
  ched_wf d42 /\ ched_wf d42' /\ CHED_eq d42 d42' = Returns true /\
  ((exists bs, CHED_hash d42 = Returns bs /\ CHED_hash d42' = Returns bs) /\
   forall (finish : list Byte.byte -> Z) (A : Type) (m m1 : list (Z * CHED * A))
          (v v' : A) (o : option A),
     hm_wf finish m -> hm_insert finish m d42' v = Returns (o, m1) ->
     exists old m2, hm_insert finish m1 d42 v' = Returns (Some old, m2) /\
                    length m2 = length m1).
Proof.
  split; [exact cops_eq_trans|]. split; [exact cops_eq_hash|].
  split; [reflexivity|]. split; [reflexivity|]. split; [reflexivity|].
  apply (CHED_hash_consistent (RT := crust) (NO := cops) cops_eq_trans cops_eq_hash d42 d42');
    reflexivity.
Defined.

(** C7: [inner_mut] hands out the [Box] itself, so a caller can put a
    [&str] under the [i32] table; equality and clone then panic. *)
Theorem inner_mut_breaks_table_invariant :
  ched_wf d42 /\ ~ ched_wf d42_swapped /\ type_id (inner d42_swapped) = TStr /\
  CHED_eq d42_swapped d42 = Panics "cannot downcast &str into i32" /\
  CHED_clone d42_swapped = Panics "cannot downcast &str into i32".
Proof.
  split; [exact d42_wf|]. split; [exact d42_swapped_not_wf|].
  split; [reflexivity|]. split; vm_compute; reflexivity.
Qed.

(** C9: the message of a [DowncastError] is the template filled with the
    source and target type names, and [panic] aborts with it; downcasting
    a boxed [i32] into [u32] gives "cannot downcast i32 into u32". *)
Theorem downcast_error_message :
  (forall (RT : RustTypes) (e : DowncastError) (R : Type),
     display e = "cannot downcast " ++ source_type_name e ++ " into " ++ target_type_name e /\
     panic (R := R) e = Panics (display e)) /\
  unwrap_or_else (box_downcast TU32 (erased TI32 42%Z)) panic =
    Panics "cannot downcast i32 into u32" /\
  unwrap_or_else (downcast_ref TU32 (inner d42)) panic =
    Panics "cannot downcast i32 into u32".
Proof.
  split; [by intros RT e R|]. split; vm_compute; reflexivity.
Qed.


(** ** Witnesses of the further properties *)

Lemma w_mid_reachable : reachable spec_unit w_mid.
Proof.
  exists w_start. split; [apply w_start_initial|].
  eapply rtc_l; [apply (step_call spec_unit w_start 0 7); reflexivity|].
  eapply rtc_l; [apply (step_call spec_unit _ 1 7); reflexivity|].
  eapply rtc_l; [apply (step_acquire spec_unit _ 0 7); reflexivity|].
  eapply rtc_l; [apply (step_vacant spec_unit _ 0 7); reflexivity|].
  eapply rtc_l; [apply (step_insert spec_unit _ 0 7); reflexivity|].
  eapply rtc_l; [apply (step_release spec_unit _ 0 7 (0, tt)); reflexivity|].
  apply rtc_refl.
Qed.

Lemma w_mid_to_end : rtc (step spec_unit) w_mid w_end.
Proof.
  eapply rtc_l; [apply (step_acquire spec_unit _ 1 7); reflexivity|].
  eapply rtc_l; [apply (step_occupied spec_unit _ 1 7 (0, tt)); reflexivity|].
  eapply rtc_l; [apply (step_release spec_unit _ 1 7 (0, tt)); reflexivity|].
  apply rtc_refl.
Qed.

Lemma cops_eq_refl (t : cty) (x : cdenote t) : ceq t x x = true.
Proof. destruct t; simpl; [apply Z.eqb_refl | apply Z.eqb_refl | apply String.eqb_refl | done]. Qed.

Lemma cops_eq_sym (t : cty) (x y : cdenote t) : ceq t x y = ceq t y x.
Proof. destruct t; simpl; [apply Z.eqb_sym | apply Z.eqb_sym | apply String.eqb_sym | done]. Qed.

Lemma cops_eq_clone (t : cty) (x : cdenote t) : ceq t x (cclone t x) = true.
Proof. destruct t; simpl; [apply Z.eqb_refl | apply Z.eqb_refl | apply String.eqb_refl | done]. Qed.

Lemma heap42_wf : heap_wf heap42.
Proof.
  intros l e. simpl. rewrite lookup_insert. case_decide; [lia|]. by rewrite lookup_empty.
Qed.

(** C8, witness: [42i32] in a box at address [0]. *)
Lemma CHED_clone_independent_witness :
  heap_wf heap42 /\ (hvtable hd42).2 = specialise TI32 /\
  cells heap42 !! hinner hd42 = Some (existT TI32 42%Z) /\
  exists c h1, HCHED_clone hd42 heap42 = Some (Returns (c, h1)) /\
    hvtable c = hvtable hd42 /\ hinner c <> hinner hd42 /\
    cells h1 !! hinner c = Some (existT TI32 (n_clone TI32 42%Z)) /\
    (forall l, l <> hinner c -> cells h1 !! l = cells heap42 !! l) /\ heap_wf h1 /\
    (forall (f : denote TI32 -> denote TI32) h2,
       hwrite_through_downcast TI32 hd42 f h1 = Some (Ok h2) ->
       cells h2 !! hinner hd42 = Some (existT TI32 (f 42%Z))) /\
    (forall h2, rtc (mutate_step hd42) h1 h2 ->
       cells h2 !! hinner c = Some (existT TI32 (n_clone TI32 42%Z))).
Proof.
  split; [exact heap42_wf|]. split; [reflexivity|]. split; [reflexivity|].
  apply (CHED_clone_independent (RT := crust) (NO := cops) hd42 heap42 TI32 42%Z);
    [exact heap42_wf | reflexivity | reflexivity].
Defined.

(** X3, witness: [i32] into [u32]. *)
Lemma downcast_error_fields_witness :
  downcast_ref TU32 (erased TI32 42%Z) = Err (cannot_downcast TU32 (erased TI32 42%Z)) /\
  cannot_downcast TU32 (erased TI32 42%Z) = cannot_downcast TU32 (erased TI32 42%Z) /\
  source_type_id (cannot_downcast TU32 (erased TI32 42%Z)) = type_id (erased TI32 42%Z) /\
  target_type_id (cannot_downcast TU32 (erased TI32 42%Z)) = TU32 /\
  source_type_id (cannot_downcast TU32 (erased TI32 42%Z)) <>
    target_type_id (cannot_downcast TU32 (erased TI32 42%Z)).
Proof.
  split; [reflexivity|].
  apply (downcast_error_fields (RT := crust) TU32 (erased TI32 42%Z)). left. reflexivity.
Defined.

(** X6, witness: the entry thread [0] created survives thread [1]'s call. *)
Lemma registry_entries_persist_witness :
  reachable spec_unit w_mid /\ rtc (step spec_unit) w_mid w_end /\
  types (reg w_mid) !! 7 = Some (0, tt) /\
  (forall k record, types (reg w_mid) !! k = Some record -> types (reg w_end) !! k = Some record).
Proof.
  split; [apply w_mid_reachable|]. split; [apply w_mid_to_end|]. split; [reflexivity|].
  apply (registry_entries_persist spec_unit); [apply w_mid_reachable | apply w_mid_to_end].
Defined.

(** X7, witness. *)
Lemma reachable_tables_specialised_witness :
  reachable spec_unit w_end /\
  tables_specialised spec_unit (reg w_end) /\
  (forall k l, (k, l) ∈ returned w_end ->
    exists record, types (reg w_end) !! k = Some record /\ record.1 = l /\
                   record.2 = spec_unit k).
Proof.
  split; [apply w_end_reachable|].
  apply (reachable_tables_specialised spec_unit). apply w_end_reachable.
Defined.

(** X9, witness: [CHED::new(42i32, &Token::default())]. *)
Lemma ched_wf_lifecycle_witness :
  reg_wf reg_empty /\ token_default TChedVTable TI32 reg_empty = (reg1, tok_i32) /\
  ched_wf (CHED_new TI32 42%Z tok_i32) /\ reg_wf reg1 /\
  (forall d c, ched_wf d -> CHED_clone d = Returns c -> ched_wf c) /\
  (forall (U : cty) (f : denote U -> denote U) d d',
     ched_wf d -> write_through_downcast U d f = Ok d' -> ched_wf d').
Proof.
  split; [apply reg_empty_wf|]. split; [reflexivity|].
  apply (ched_wf_lifecycle (RT := crust) (NO := cops) TChedVTable TI32 42%Z reg_empty reg1);
    [apply reg_empty_wf | reflexivity].
Defined.

(** X10, witness: [format!("{:?}", CHED::new(42, &Token::default()))] is "42". *)
Lemma CHED_fmt_new_witness :
  reg_wf reg_empty /\ token_default TChedVTable TI32 reg_empty = (reg1, tok_i32) /\
  CHED_fmt (CHED_new TI32 42%Z tok_i32) = Returns (n_fmt TI32 42%Z) /\
  n_fmt TI32 42%Z = "42".
Proof.
  split; [apply reg_empty_wf|]. split; [reflexivity|]. split; [|vm_compute; reflexivity].
  apply (CHED_fmt_new (RT := crust) (NO := cops) TChedVTable TI32 42%Z reg_empty reg1);
    [apply reg_empty_wf | reflexivity].
Defined.

(** X12, witness. *)
Lemma CHED_eq_refl_clone_witness :
  (forall t (x : denote (RustTypes := crust) t), n_eq t x x = true) /\
  (forall t (x : denote (RustTypes := crust) t), n_eq t x (n_clone t x) = true) /\
  ched_wf d42 /\ CHED_eq d42 d42 = Returns true /\
  exists c, CHED_clone d42 = Returns c /\ CHED_eq d42 c = Returns true /\ ched_wf c.
Proof.
  split; [exact cops_eq_refl|]. split; [exact cops_eq_clone|]. split; [reflexivity|].
  apply (CHED_eq_refl_clone (RT := crust) (NO := cops) cops_eq_refl cops_eq_clone d42).
  reflexivity.
Defined.

(** X13, witness: [42i32] and ["foo"]. *)
Lemma CHED_eq_sym_witness :
  (forall t (x y : denote (RustTypes := crust) t), n_eq t x y = n_eq t y x) /\
  ched_wf d42 /\ ched_wf dfoo /\
  (exists b, CHED_eq d42 dfoo = Returns b) /\ CHED_eq d42 dfoo = CHED_eq dfoo d42.
Proof.
  split; [exact cops_eq_sym|]. split; [reflexivity|]. split; [reflexivity|].
  apply (CHED_eq_sym (RT := crust) (NO := cops) cops_eq_sym d42 dfoo); reflexivity.
Defined.

(** X15, witness: [43i32] into a map holding [42i32]. *)
Lemma hm_insert_fresh_witness :
  hm_wf (fun _ => 0%Z) [(0%Z, d42, tt)] /\ ched_wf d43 /\
  (forall e, e ∈ [(0%Z, d42, tt)] -> CHED_eq d43 e.1.2 = Returns false) /\
  exists bs, CHED_hash d43 = Returns bs /\
    hm_insert (fun _ => 0%Z) [(0%Z, d42, tt)] d43 tt =
      Returns (None, ([(0%Z, d42, tt)] ++ [((fun _ => 0%Z) bs, d43, tt)])%list) /\
    hm_wf (fun _ => 0%Z) ([(0%Z, d42, tt)] ++ [((fun _ => 0%Z) bs, d43, tt)])%list.
Proof.
  assert (Hm : hm_wf (fun _ => 0%Z) [(0%Z, d42, tt)]).
  { unfold hm_wf. simpl. constructor; [|constructor].
    split; [reflexivity|]. eexists. split; reflexivity. }
  assert (Hf : forall e, e ∈ [(0%Z, d42, tt)] -> CHED_eq d43 e.1.2 = Returns false).
  { intros e He. apply list_elem_of_singleton in He. subst e. vm_compute. reflexivity. }
  split; [exact Hm|]. split; [reflexivity|]. split; [exact Hf|].
  apply (hm_insert_fresh (RT := crust) (NO := cops) (fun _ => 0%Z) [(0%Z, d42, tt)] d43 tt Hm);
    [reflexivity | exact Hf].
Defined.

End ConcreteFacts.
